(** * Verification of the S3 image-compression Lambda handler

    Shallow embedding of [lambda/image_compression.py].

    The handler is sequential Python that talks to three outside
    services (the S3 client, the Pillow codec, the DynamoDB table) and
    lets every exception escape.  It is embedded as a state-and-exception
    monad over an arbitrary world; every call to a service is recorded,
    together with its outcome, in a chronological trace. *)

From Stdlib Require Import ZArith List String Ascii Bool Lia.
From Stdlib Require Import QArith Qround Qabs Qfield Lqa.
From Stdlib Require Strings.Byte.
From Stdlib Require Import DecimalString.
Import ListNotations.

Local Open Scope string_scope.
Local Open Scope Z_scope.

(** ** Python strings: the two operations used on the object key *)

Module PyStr.

(** [s.rfind(c)]: the highest index at which the character [c] occurs
    in [s], or [-1] when it does not occur. *)
Fixpoint rfind (c : ascii) (s : string) : Z :=
  match s with
  | EmptyString => -1
  | String a s' =>
      let r := rfind c s' in
      if 0 <=? r then r + 1
      else if Ascii.eqb a c then 0 else -1
  end.

(** [s[i:]] for a non-negative index [i]. *)
Fixpoint drop (n : nat) (s : string) : string :=
  match n, s with
  | O, _ => s
  | S _, EmptyString => EmptyString
  | S n', String _ s' => drop n' s'
  end.

Definition slice_from (i : Z) (s : string) : string := drop (Z.to_nat i) s.

(** [c in s]. *)
Fixpoint contains (c : ascii) (s : string) : bool :=
  match s with
  | EmptyString => false
  | String a s' => Ascii.eqb a c || contains c s'
  end.

(** [s.endswith(c)], for a one-character [c]. *)
Fixpoint ends_with (c : ascii) (s : string) : bool :=
  match s with
  | EmptyString => false
  | String a EmptyString => Ascii.eqb a c
  | String _ s' => ends_with c s'
  end.

End PyStr.

(** Modelled from the spec: [os.path.basename] belongs to Python's
    standard library, not to this repository.  The spec calls its result
    "the final path segment"; on the POSIX runtime of the handler it is
    [p[p.rfind('/') + 1:]], which is what is written here. *)
Definition basename (p : string) : string :=
  let i := PyStr.rfind "/"%char p + 1 in
  PyStr.slice_from i p.

(** ** Pillow: the size computed by [Image.thumbnail]

    Pillow is a third-party codec, not part of this repository.  The
    handler depends on three things it does: decoding, the shrink-to-fit
    size computation of [thumbnail], and encoding.  Decoding, resampling
    and encoding stay abstract (see [Services] below); the size
    computation is written out, with Python's floats read as exact
    rationals. *)

Module Pillow.

Local Open Scope Q_scope.

(** Modelled from the spec: the rounding helper of [Image.thumbnail],
    which is Pillow's.  It is
    [max(min(math.floor(number), math.ceil(number), key=key), 1)];
    Python's [min] keeps its first argument unless the key of the
    second one is strictly smaller. *)
Definition round_aspect (number : Q) (key : Z -> Q) : Z :=
  let lo := Qfloor number in
  let hi := Qceiling number in
  Z.max (if Qle_bool (key lo) (key hi) then lo else hi) 1.

(** Modelled from the spec: the part of [Image.thumbnail] that picks the
    final size is Pillow's, not this repository's.  The spec describes it
    as "scale down, preserving aspect ratio, such that both dimensions
    are <= 1024 pixels (no upscaling if already smaller)"; this is
    Pillow's [preserve_aspect_ratio], which returns [None] when the
    image already fits the requested box. *)
Definition preserve_aspect_ratio
    (provided_size : Z * Z) (width height : Z) : option (Z * Z) :=
  let '(x, y) := provided_size in
  if ((x >=? width) && (y >=? height))%Z then None
  else
    let aspect := inject_Z width / inject_Z height in
    if Qle_bool aspect (inject_Z x / inject_Z y) then
      Some (round_aspect (inject_Z y * aspect)
              (fun n => Qabs (aspect - inject_Z n / inject_Z y)),
            y)
    else
      Some (x,
            round_aspect (inject_Z x / aspect)
              (fun n => if (n =? 0)%Z then 0
                        else Qabs (aspect - inject_Z x / inject_Z n))).

(** The size of the image once [thumbnail(provided_size)] has run. *)
Definition thumbnail_size
    (provided_size : Z * Z) (width height : Z) : Z * Z :=
  match preserve_aspect_ratio provided_size width height with
  | None => (width, height)
  | Some final_size => final_size
  end.

End Pillow.

(** ** Data model *)

Definition bytes : Type := list Byte.byte.

(** The failures the spec names, and any other Python exception. *)
Inductive Exception : Type :=
| DecodeError
| StoreReadError
| StoreWriteError
| SchemaError
| OtherException (name : string).

(** The invocation input: [event['Records'][i]['s3']['object']['key']] and
    [event['Records'][i]['s3']['bucket']['name']]. *)
Module S3Event.
Record Object := { key : string }.
Record Bucket := { name : string }.
Record S3 := { object : Object; bucket : Bucket }.
Record Record_ := { s3 : S3 }.
Record Event := { Records : list Record_ }.

Definition notification (bucket_name object_key : string) : Record_ :=
  {| s3 := {| object := {| key := object_key |};
              bucket := {| name := bucket_name |} |} |}.
End S3Event.

(** The response of [s3.get_object], with its body already read. *)
Record S3Object := {
  Body : bytes;
  ContentType : string;
  ContentLength : Z
}.

(** A decoded Pillow image: detected format, [(width, height)], raster. *)
Record Image := {
  format : string;
  size : Z * Z;
  im : bytes
}.

Definition width (image : Image) : Z := fst (size image).
Definition height (image : Image) : Z := snd (size image).

(** The item written to the [ImageMetadata] table. *)
Record Item := {
  imageId : string;
  sourceBucket : string;
  sourceKey : string;
  destBucket : string;
  destKey : string;
  contentType : string;
  sizeOriginal : Z;
  resizedAt : string
}.

(** One call to a store, and how it ended. *)
Inductive Call : Type :=
| GetObject (Bucket Key : string)
| PutObject (Bucket Key : string) (Body : bytes) (ContentType : string)
| PutItem (item : Item).

Inductive Outcome : Type :=
| Returned
| Raised (e : Exception).

Definition Entry : Type := Call * Outcome.

Definition outcome_of {A : Type} (r : Exception + A) : Outcome :=
  match r with
  | inl e => Raised e
  | inr _ => Returned
  end.

(** ** The outside services

    [World] is whatever the stores, the random generator and the clock
    hold; a call may change it whether it returns or raises.  The fields
    stand for [s3.get_object(Bucket, Key)] with the body read,
    [s3.put_object(Bucket, Key, Body, ContentType)],
    [metadata_table.put_item(Item)], [str(uuid.uuid4())],
    [datetime.utcnow().isoformat()], [Image.open], the resampling done
    inside [thumbnail], and [image.save(buffer, format, optimize,
    quality)] returning the bytes written to the buffer. *)
Class Services (World : Type) := {
  s3_get_object :
    string -> string -> World -> (Exception + S3Object) * World;
  s3_put_object :
    string -> string -> bytes -> string -> World -> (Exception + unit) * World;
  table_put_item : Item -> World -> (Exception + unit) * World;
  uuid4 : World -> string * World;
  utcnow_isoformat : World -> string * World;
  Image_open : bytes -> Exception + Image;
  Image_resize : Image -> Z * Z -> bytes;
  Image_save : Image -> string -> bool -> Z -> Exception + bytes
}.

(** ** The handler's monad: world, trace of store calls, exceptions *)

Record State (World : Type) := mkState {
  world : World;
  trace : list Entry
}.
Arguments mkState {World} _ _.
Arguments world {World} _.
Arguments trace {World} _.

Definition M (World A : Type) : Type :=
  State World -> (Exception + A) * State World.

Definition ret {World A : Type} (a : A) : M World A :=
  fun s => (inr a, s).

Definition bind {World A B : Type}
    (m : M World A) (k : A -> M World B) : M World B :=
  fun s =>
    match m s with
    | (inr a, s') => k a s'
    | (inl e, s') => (inl e, s')
    end.

Declare Scope handler_scope.
Delimit Scope handler_scope with handler.
Notation "x <- m ;; k" := (bind m (fun x => k))
  (at level 100, m at next level, right associativity) : handler_scope.
Notation "m ;; k" := (bind m (fun _ => k))
  (at level 100, right associativity) : handler_scope.
Local Open Scope handler_scope.

(** A pure library call that may raise. *)
Definition lift {World A : Type} (r : Exception + A) : M World A :=
  fun s => (r, s).

(** A call to a store: the world moves on and the call is appended to the
    trace with its outcome. *)
Definition store_call {World A : Type}
    (c : Call) (f : World -> (Exception + A) * World) : M World A :=
  fun s =>
    let '(r, w') := f (world s) in
    (r, mkState w' (trace s ++ [(c, outcome_of r)])).

(** A call that reads the generator or the clock. *)
Definition ambient {World A : Type} (f : World -> A * World) : M World A :=
  fun s =>
    let '(a, w') := f (world s) in
    (inr a, mkState w' (trace s)).

(** [for x in xs: body(x)]. *)
Fixpoint for_each {World A : Type}
    (body : A -> M World unit) (xs : list A) : M World unit :=
  match xs with
  | [] => ret tt
  | x :: xs' => body x ;; for_each body xs'
  end.

(** ** The handler *)

Definition SOURCE_BUCKET : string := "source-image-azoz".
Definition DEST_BUCKET : string := "resized-image-azoz".

(** The returned dict [{"status": "done"}]. *)
Definition status_done : list (string * string) := [("status", "done")].

Section Handler.

Context {World : Type} {services : Services World}.

(** Modelled from the spec: [image.thumbnail(provided_size)] is Pillow's
    method.  It shrinks the image to fit the box ("shrink to fit", never
    upscaling) and works in place, so the [format] attribute set by
    [Image.open] stays; the raster is resampled only when the size
    changes. *)
Definition thumbnail (image : Image) (provided_size : Z * Z) : Image :=
  match Pillow.preserve_aspect_ratio
          provided_size (width image) (height image) with
  | None => image
  | Some final_size =>
      if (fst (size image) =? fst final_size)
         && (snd (size image) =? snd final_size)
      then image
      else {| format := format image;
              size := final_size;
              im := Image_resize image final_size |}
  end.

(** The body of the loop, for one record. *)
Definition process_record (record : S3Event.Record_) : M World unit :=
  let key := S3Event.key (S3Event.object (S3Event.s3 record)) in
  let bucket := S3Event.name (S3Event.bucket (S3Event.s3 record)) in
  if negb (bucket =? SOURCE_BUCKET)%string then
    ret tt
  else
    obj <- store_call (GetObject bucket key) (s3_get_object bucket key) ;;
    let img_data := Body obj in
    image <- lift (Image_open img_data) ;;
    let image := thumbnail image (1024, 1024) in
    output_buffer <- lift (Image_save image (format image) true 70) ;;
    let output_key := "resized-" ++ basename key in
    store_call
      (PutObject DEST_BUCKET output_key output_buffer (ContentType obj))
      (s3_put_object DEST_BUCKET output_key output_buffer (ContentType obj)) ;;
    image_id <- ambient uuid4 ;;
    resized_at <- ambient utcnow_isoformat ;;
    let item :=
      {| imageId := image_id;
         sourceBucket := bucket;
         sourceKey := key;
         destBucket := DEST_BUCKET;
         destKey := output_key;
         contentType := ContentType obj;
         sizeOriginal := ContentLength obj;
         resizedAt := resized_at |} in
    store_call (PutItem item) (table_put_item item).

(** [lambda_handler(event, context)]; [context] is not used. *)
Definition lambda_handler (event : S3Event.Event)
  : M World (list (string * string)) :=
  for_each process_record (S3Event.Records event) ;;
  ret status_done.

End Handler.

(** ** Vocabulary of the statements *)

Section Runs.

Context {World : Type} {services : Services World}.

(** Every record of the list was processed, one after the other, and
    none raised: [s] is the state before the first, [s'] the state after
    the last. *)
Inductive processed_all
  : list S3Event.Record_ -> State World -> State World -> Prop :=
| processed_nil s :
    processed_all [] s s
| processed_cons record records s s1 s2 :
    process_record record s = (inr tt, s1) ->
    processed_all records s1 s2 ->
    processed_all (record :: records) s s2.

(** The paths through the body of the loop, one constructor for each
    place where it can leave: the [continue], an exception out of one of
    the five calls that can raise, and the end of the body.  The second
    index is the result and the state the body leaves. *)
Inductive item_run (record : S3Event.Record_) (s : State World)
  : (Exception + unit) * State World -> Prop :=
| run_skipped :
    S3Event.name (S3Event.bucket (S3Event.s3 record)) <> SOURCE_BUCKET ->
    item_run record s (inr tt, s)
| run_read_raised e w1 :
    let key := S3Event.key (S3Event.object (S3Event.s3 record)) in
    let bucket := S3Event.name (S3Event.bucket (S3Event.s3 record)) in
    bucket = SOURCE_BUCKET ->
    s3_get_object bucket key (world s) = (inl e, w1) ->
    item_run record s
      (inl e, mkState w1 (trace s ++ [(GetObject bucket key, Raised e)]))
| run_open_raised obj w1 e :
    let key := S3Event.key (S3Event.object (S3Event.s3 record)) in
    let bucket := S3Event.name (S3Event.bucket (S3Event.s3 record)) in
    bucket = SOURCE_BUCKET ->
    s3_get_object bucket key (world s) = (inr obj, w1) ->
    Image_open (Body obj) = inl e ->
    item_run record s
      (inl e, mkState w1 (trace s ++ [(GetObject bucket key, Returned)]))
| run_save_raised obj w1 opened e :
    let key := S3Event.key (S3Event.object (S3Event.s3 record)) in
    let bucket := S3Event.name (S3Event.bucket (S3Event.s3 record)) in
    let image := thumbnail opened (1024, 1024) in
    bucket = SOURCE_BUCKET ->
    s3_get_object bucket key (world s) = (inr obj, w1) ->
    Image_open (Body obj) = inr opened ->
    Image_save image (format image) true 70 = inl e ->
    item_run record s
      (inl e, mkState w1 (trace s ++ [(GetObject bucket key, Returned)]))
| run_put_raised obj w1 opened output_buffer e w2 :
    let key := S3Event.key (S3Event.object (S3Event.s3 record)) in
    let bucket := S3Event.name (S3Event.bucket (S3Event.s3 record)) in
    let image := thumbnail opened (1024, 1024) in
    let output_key := "resized-" ++ basename key in
    bucket = SOURCE_BUCKET ->
    s3_get_object bucket key (world s) = (inr obj, w1) ->
    Image_open (Body obj) = inr opened ->
    Image_save image (format image) true 70 = inr output_buffer ->
    s3_put_object DEST_BUCKET output_key output_buffer (ContentType obj) w1
      = (inl e, w2) ->
    item_run record s
      (inl e,
       mkState w2
         (trace s ++
          [(GetObject bucket key, Returned);
           (PutObject DEST_BUCKET output_key output_buffer (ContentType obj),
            Raised e)]))
| run_item_raised obj w1 opened output_buffer w2 image_id w3 resized_at w4
    e w5 :
    let key := S3Event.key (S3Event.object (S3Event.s3 record)) in
    let bucket := S3Event.name (S3Event.bucket (S3Event.s3 record)) in
    let image := thumbnail opened (1024, 1024) in
    let output_key := "resized-" ++ basename key in
    let item :=
      {| imageId := image_id;
         sourceBucket := bucket;
         sourceKey := key;
         destBucket := DEST_BUCKET;
         destKey := output_key;
         contentType := ContentType obj;
         sizeOriginal := ContentLength obj;
         resizedAt := resized_at |} in
    bucket = SOURCE_BUCKET ->
    s3_get_object bucket key (world s) = (inr obj, w1) ->
    Image_open (Body obj) = inr opened ->
    Image_save image (format image) true 70 = inr output_buffer ->
    s3_put_object DEST_BUCKET output_key output_buffer (ContentType obj) w1
      = (inr tt, w2) ->
    uuid4 w2 = (image_id, w3) ->
    utcnow_isoformat w3 = (resized_at, w4) ->
    table_put_item item w4 = (inl e, w5) ->
    item_run record s
      (inl e,
       mkState w5
         (trace s ++
          [(GetObject bucket key, Returned);
           (PutObject DEST_BUCKET output_key output_buffer (ContentType obj),
            Returned);
           (PutItem item, Raised e)]))
| run_completed obj w1 opened output_buffer w2 image_id w3 resized_at w4
    w5 :
    let key := S3Event.key (S3Event.object (S3Event.s3 record)) in
    let bucket := S3Event.name (S3Event.bucket (S3Event.s3 record)) in
    let image := thumbnail opened (1024, 1024) in
    let output_key := "resized-" ++ basename key in
    let item :=
      {| imageId := image_id;
         sourceBucket := bucket;
         sourceKey := key;
         destBucket := DEST_BUCKET;
         destKey := output_key;
         contentType := ContentType obj;
         sizeOriginal := ContentLength obj;
         resizedAt := resized_at |} in
    bucket = SOURCE_BUCKET ->
    s3_get_object bucket key (world s) = (inr obj, w1) ->
    Image_open (Body obj) = inr opened ->
    Image_save image (format image) true 70 = inr output_buffer ->
    s3_put_object DEST_BUCKET output_key output_buffer (ContentType obj) w1
      = (inr tt, w2) ->
    uuid4 w2 = (image_id, w3) ->
    utcnow_isoformat w3 = (resized_at, w4) ->
    table_put_item item w4 = (inr tt, w5) ->
    item_run record s
      (inr tt,
       mkState w5
         (trace s ++
          [(GetObject bucket key, Returned);
           (PutObject DEST_BUCKET output_key output_buffer (ContentType obj),
            Returned);
           (PutItem item, Returned)])).

End Runs.

Definition record_key (record : S3Event.Record_) : string :=
  S3Event.key (S3Event.object (S3Event.s3 record)).

Definition record_bucket (record : S3Event.Record_) : string :=
  S3Event.name (S3Event.bucket (S3Event.s3 record)).

(** The call returned normally. *)
Definition returned (entry : Entry) : bool :=
  match snd entry with
  | Returned => true
  | Raised _ => false
  end.

(** The entry writes to, or records, the destination key [k]. *)
Definition names_dest_key (k : string) (entry : Entry) : Prop :=
  match fst entry with
  | GetObject _ _ => True
  | PutObject _ Key _ _ => Key = k
  | PutItem item => destKey item = k
  end.

(** The derivatives written by the entries: bucket and key of every
    [put_object] that returned. *)
Fixpoint derivatives (entries : list Entry) : list (string * string) :=
  match entries with
  | [] => []
  | (PutObject b k _ _, Returned) :: rest => (b, k) :: derivatives rest
  | _ :: rest => derivatives rest
  end.

(** The metadata records inserted by the entries that reference the
    derivative [(b, k)]. *)
Fixpoint records_for (b k : string) (entries : list Entry) : list Item :=
  match entries with
  | [] => []
  | (PutItem item, Returned) :: rest =>
      if ((destBucket item =? b) && (destKey item =? k))%string
      then item :: records_for b k rest
      else records_for b k rest
  | _ :: rest => records_for b k rest
  end.

(** Every derivative written by the entries has exactly one record. *)
Definition one_record_per_derivative (entries : list Entry) : bool :=
  forallb
    (fun d => (List.length (records_for (fst d) (snd d) entries) =? 1)%nat)
    (derivatives entries).

(** ** An in-memory instance of the services

    A small world to run the handler in: buckets as an association list,
    a table that can be switched off, a counter in place of the random
    generator, and a toy codec whose files are a format tag, the
    big-endian width and height on two bytes each, and the raster. *)
Module Demo.

Record World := mkWorld {
  objects : list ((string * string) * S3Object);
  table_online : bool;
  table : list Item;
  issued : nat
}.

Definition same_place (p q : string * string) : bool :=
  ((fst p =? fst q) && (snd p =? snd q))%string.

Fixpoint lookup (p : string * string)
    (objs : list ((string * string) * S3Object)) : option S3Object :=
  match objs with
  | [] => None
  | (q, o) :: rest => if same_place p q then Some o else lookup p rest
  end.

Definition get_object (b k : string) (w : World)
  : (Exception + S3Object) * World :=
  match lookup (b, k) (objects w) with
  | Some o => (inr o, w)
  | None => (inl StoreReadError, w)
  end.

Definition put_object (b k : string) (body : bytes) (ct : string)
    (w : World) : (Exception + unit) * World :=
  let o := {| Body := body; ContentType := ct;
              ContentLength := Z.of_nat (List.length body) |} in
  (inr tt,
   mkWorld (((b, k), o) :: objects w) (table_online w) (table w) (issued w)).

Definition put_item (item : Item) (w : World)
  : (Exception + unit) * World :=
  if table_online w
  then (inr tt,
        mkWorld (objects w) true (table w ++ [item]) (issued w))
  else (inl StoreWriteError, w).

Definition next_uuid (w : World) : string * World :=
  ("id-" ++ NilEmpty.string_of_uint (Nat.to_uint (issued w)),
   mkWorld (objects w) (table_online w) (table w) (S (issued w))).

Definition clock (w : World) : string * World :=
  ("2024-01-01T00:00:00", w).

Definition format_of_tag (tag : Byte.byte) : option string :=
  match tag with
  | Byte.x4a => Some "JPEG"
  | Byte.x50 => Some "PNG"
  | _ => None
  end.

Definition tag_of_format (fmt : string) : option Byte.byte :=
  if (fmt =? "JPEG")%string then Some Byte.x4a
  else if (fmt =? "PNG")%string then Some Byte.x50
  else None.

Definition two_bytes (hi lo : Byte.byte) : Z :=
  256 * Z.of_N (Byte.to_N hi) + Z.of_N (Byte.to_N lo).

Definition byte_of (z : Z) : Byte.byte :=
  match Byte.of_N (Z.to_N (z mod 256)) with
  | Some b => b
  | None => Byte.x00
  end.

Definition decode (data : bytes) : Exception + Image :=
  match data with
  | tag :: wh :: wl :: hh :: hl :: raster =>
      match format_of_tag tag with
      | Some fmt =>
          inr {| format := fmt;
                 size := (two_bytes wh wl, two_bytes hh hl);
                 im := raster |}
      | None => inl DecodeError
      end
  | _ => inl DecodeError
  end.

(** The toy resampler keeps one raster byte out of two. *)
Fixpoint every_other (raster : bytes) : bytes :=
  match raster with
  | a :: _ :: rest => a :: every_other rest
  | _ => raster
  end.

Definition resize (image : Image) (final_size : Z * Z) : bytes :=
  every_other (im image).

Definition encode (image : Image) (fmt : string)
    (optimize : bool) (quality : Z) : Exception + bytes :=
  match tag_of_format fmt with
  | Some tag =>
      inr (tag :: byte_of (width image / 256) :: byte_of (width image)
               :: byte_of (height image / 256) :: byte_of (height image)
               :: im image)
  | None => inl (OtherException "KeyError")
  end.

#[global] Instance services : Services World := {|
  s3_get_object := get_object;
  s3_put_object := put_object;
  table_put_item := put_item;
  uuid4 := next_uuid;
  utcnow_isoformat := clock;
  Image_open := decode;
  Image_resize := resize;
  Image_save := encode
|}.

(** A 2000 x 1000 JPEG with a four-byte raster, and a text file. *)
Definition photo_bytes : bytes :=
  [Byte.x4a; Byte.x07; Byte.xd0; Byte.x03; Byte.xe8;
   Byte.x01; Byte.x02; Byte.x03; Byte.x04].

Definition photo : S3Object :=
  {| Body := photo_bytes; ContentType := "image/jpeg"; ContentLength := 9 |}.

Definition notes : S3Object :=
  {| Body := [Byte.x68; Byte.x69]; ContentType := "text/plain";
     ContentLength := 2 |}.

Definition stocked (online : bool) : World :=
  mkWorld [((SOURCE_BUCKET, "folder/sub/photo.jpg"), photo);
           ((SOURCE_BUCKET, "notes.txt"), notes)]
          online [] 0.

Definition start (online : bool) : State World := mkState (stocked online) [].

Definition photo_record : S3Event.Record_ :=
  S3Event.notification SOURCE_BUCKET "folder/sub/photo.jpg".

Definition notes_record : S3Event.Record_ :=
  S3Event.notification SOURCE_BUCKET "notes.txt".

Definition missing_record : S3Event.Record_ :=
  S3Event.notification SOURCE_BUCKET "gone.jpg".

Definition foreign_record : S3Event.Record_ :=
  S3Event.notification "another-bucket" "folder/sub/photo.jpg".

(** The state once [photo_record] has been processed with the table
    online, and the states the failing records leave. *)
Definition after_photo : State World :=
  snd (process_record photo_record (start true)).

Definition after_notes : State World :=
  snd (process_record notes_record after_photo).

(** The photo processed while the table is offline. *)
Definition offline_run : (Exception + unit) * State World :=
  process_record photo_record (start false).

Definition wide_image : Image :=
  {| format := "JPEG"; size := (2000, 1000);
     im := [Byte.x01; Byte.x02; Byte.x03; Byte.x04] |}.

Definition resized_photo_bytes : bytes :=
  [Byte.x4a; Byte.x04; Byte.x00; Byte.x02; Byte.x00; Byte.x01; Byte.x03].

End Demo.

(** ** Vocabulary of the batch-level statements *)

(** The records of a batch that the handler does not skip, and their
    keys, in the order of the batch. *)
Definition source_records (records : list S3Event.Record_)
  : list S3Event.Record_ :=
  filter (fun record => (record_bucket record =? SOURCE_BUCKET)%string)
    records.

Definition source_keys (records : list S3Event.Record_) : list string :=
  map record_key (source_records records).

(** The keys of the [get_object] calls of the entries, whatever their
    outcome. *)
Fixpoint reads (entries : list Entry) : list string :=
  match entries with
  | [] => []
  | (GetObject _ k, _) :: rest => k :: reads rest
  | _ :: rest => reads rest
  end.

(** The items of the [put_item] calls that returned. *)
Fixpoint inserted (entries : list Entry) : list Item :=
  match entries with
  | [] => []
  | (PutItem item, Returned) :: rest => item :: inserted rest
  | _ :: rest => inserted rest
  end.

(** The call stays in the handler's buckets: reads from the source
    bucket, writes to the destination bucket, records that name both. *)
Definition confined (entry : Entry) : Prop :=
  match fst entry with
  | GetObject b _ => b = SOURCE_BUCKET
  | PutObject b _ _ _ => b = DEST_BUCKET
  | PutItem item =>
      sourceBucket item = SOURCE_BUCKET /\ destBucket item = DEST_BUCKET
  end.

(** A destination key at the top level of the bucket: it starts with
    "resized-" and holds no slash. *)
Definition flat_dest_key (k : string) : bool :=
  String.prefix "resized-" k && negb (PyStr.contains "/"%char k).

Definition writes_flat (entry : Entry) : Prop :=
  match fst entry with
  | GetObject _ _ => True
  | PutObject _ k _ _ => flat_dest_key k = true
  | PutItem item => flat_dest_key (destKey item) = true
  end.

(** Every [put_item] of the entries, returned or raised, comes right
    after a [put_object] that returned for the bucket and key the item
    names. *)
Definition records_follow_writes (entries : list Entry) : Prop :=
  forall before item outcome after,
    entries = (before ++ (PutItem item, outcome) :: after)%list ->
    exists earlier body ct,
      before
      = (earlier ++
         [(PutObject (destBucket item) (destKey item) body ct, Returned)])%list.

(** Two photos of the same name in two folders of the source bucket. *)
Module Albums.

Definition world : Demo.World :=
  Demo.mkWorld
    [((SOURCE_BUCKET, "a/photo.jpg"), Demo.photo);
     ((SOURCE_BUCKET, "b/photo.jpg"), Demo.photo)]
    true [] 0.

Definition start : State Demo.World := mkState world [].

Definition first_record : S3Event.Record_ :=
  S3Event.notification SOURCE_BUCKET "a/photo.jpg".

Definition second_record : S3Event.Record_ :=
  S3Event.notification SOURCE_BUCKET "b/photo.jpg".

Definition after_both : State Demo.World :=
  snd (for_each process_record [first_record; second_record] start).

End Albums.

(** A codec that reads one more format than it writes: files that
    start with a slash decode as XPM, which the encoder of [Demo] does not
    know. *)
Module Xpm.

Definition decode (data : bytes) : Exception + Image :=
  match data with
  | Byte.x2f :: wh :: wl :: hh :: hl :: raster =>
      inr {| format := "XPM";
             size := (Demo.two_bytes wh wl, Demo.two_bytes hh hl);
             im := raster |}
  | _ => Demo.decode data
  end.

Definition services : Services Demo.World := {|
  s3_get_object := Demo.get_object;
  s3_put_object := Demo.put_object;
  table_put_item := Demo.put_item;
  uuid4 := Demo.next_uuid;
  utcnow_isoformat := Demo.clock;
  Image_open := decode;
  Image_resize := Demo.resize;
  Image_save := Demo.encode
|}.

(** A 16 x 16 icon. *)
Definition icon : S3Object :=
  {| Body := [Byte.x2f; Byte.x00; Byte.x10; Byte.x00; Byte.x10;
              Byte.x01; Byte.x02];
     ContentType := "image/x-xpixmap";
     ContentLength := 7 |}.

Definition icon_image : Image :=
  {| format := "XPM"; size := (16, 16); im := [Byte.x01; Byte.x02] |}.

Definition world : Demo.World :=
  Demo.mkWorld [((SOURCE_BUCKET, "icon.xpm"), icon)] true [] 0.

Definition start : State Demo.World := mkState world [].

Definition icon_record : S3Event.Record_ :=
  S3Event.notification SOURCE_BUCKET "icon.xpm".

Definition icon_run : (Exception + unit) * State Demo.World :=
  @process_record Demo.World services icon_record start.

End Xpm.

(** * Properties *)

(** ** The basename of a key *)

Example basename_nested : basename "folder/sub/photo.jpg" = "photo.jpg".
Proof. reflexivity. Qed.

Example basename_flat : basename "photo.jpg" = "photo.jpg".
Proof. reflexivity. Qed.

Example basename_trailing_slash : basename "folder/" = "".
Proof. reflexivity. Qed.

Lemma rfind_lower (c : ascii) (s : string) : -1 <= PyStr.rfind c s.
Proof.
  induction s as [|a s IH]; simpl; [lia|].
  destruct (0 <=? PyStr.rfind c s) eqn:E.
  - apply Z.leb_le in E. lia.
  - destruct (Ascii.eqb a c); lia.
Qed.

Lemma rfind_absent (c : ascii) (s : string) :
  PyStr.rfind c s = -1 <-> PyStr.contains c s = false.
Proof.
  induction s as [|a s IH]; simpl; [tauto|].
  pose proof (rfind_lower c s) as L.
  destruct (0 <=? PyStr.rfind c s) eqn:E.
  - apply Z.leb_le in E. split; intro H.
    + lia.
    + apply orb_false_iff in H. destruct H as [_ H].
      apply IH in H. lia.
  - apply Z.leb_gt in E.
    assert (PyStr.rfind c s = -1) as R by lia.
    apply IH in R. rewrite R, orb_false_r.
    destruct (Ascii.eqb a c); split; intro;
      (lia || discriminate || reflexivity).
Qed.

(** The key splits into a directory part and its basename: the directory
    part is empty or ends with a slash, and the basename holds no slash. *)
Lemma basename_split (p : string) :
  exists dir,
    p = dir ++ basename p
    /\ (dir = "" \/ PyStr.ends_with "/"%char dir = true)
    /\ PyStr.contains "/"%char (basename p) = false.
Proof.
  unfold basename, PyStr.slice_from.
  induction p as [|a p IH]; simpl.
  - exists "". auto.
  - pose proof (rfind_lower "/"%char p) as L.
    destruct (0 <=? PyStr.rfind "/"%char p) eqn:E.
    + apply Z.leb_le in E.
      destruct IH as (dir & Hp & Hd & Hn).
      replace (Z.to_nat (PyStr.rfind "/"%char p + 1 + 1))
        with (S (Z.to_nat (PyStr.rfind "/"%char p + 1))) by lia.
      simpl. exists (String a dir). split; [|split].
      * simpl. now rewrite <- Hp.
      * right. destruct Hd as [->|Hd].
        -- (* the directory part of a key that holds a slash is not empty *)
           exfalso. simpl in Hp.
           assert (PyStr.rfind "/"%char p = -1); [|lia].
           apply rfind_absent. now rewrite Hp.
        -- simpl. destruct dir; [discriminate|exact Hd].
      * exact Hn.
    + apply Z.leb_gt in E.
      assert (PyStr.rfind "/"%char p = -1) as R by lia.
      pose proof (proj1 (rfind_absent _ _) R) as Hc.
      destruct (Ascii.eqb a "/"%char) eqn:Ea.
      * apply Ascii.eqb_eq in Ea. subst a. simpl.
        exists "/". simpl. auto.
      * simpl. exists "". simpl. rewrite Ea, Hc. auto.
Qed.

(** ** The size picked by [thumbnail] *)

Example thumbnail_size_landscape :
  Pillow.thumbnail_size (1024, 1024) 2000 1000 = (1024, 512).
Proof. vm_compute. reflexivity. Qed.

Example thumbnail_size_portrait :
  Pillow.thumbnail_size (1024, 1024) 2000 3000 = (683, 1024).
Proof. vm_compute. reflexivity. Qed.

Example thumbnail_size_small :
  Pillow.thumbnail_size (1024, 1024) 800 600 = (800, 600).
Proof. vm_compute. reflexivity. Qed.

Example thumbnail_size_sliver :
  Pillow.thumbnail_size (1024, 1024) 100000 1 = (1024, 1).
Proof. vm_compute. reflexivity. Qed.

Section PillowFacts.

Local Open Scope Q_scope.

(** The rounded value lies in the box and within one pixel of the exact
    one, whichever of floor and ceiling the key prefers. *)
Lemma round_aspect_close (number : Q) (key : Z -> Q) :
  0 < number -> number <= 1024 ->
  (1 <= Pillow.round_aspect number key <= 1024)%Z
  /\ Qabs (inject_Z (Pillow.round_aspect number key) - number) < 1.
Proof.
  intros Hpos Hle. unfold Pillow.round_aspect.
  pose proof (Qfloor_le number) as F1.
  pose proof (Qlt_floor number) as F2.
  pose proof (Qle_ceiling number) as C1.
  pose proof (Qceiling_lt number) as C2.
  pose proof (Qle_floor_ceiling number) as FC. rewrite <- Zle_Qle in FC.
  assert (0 <= Qfloor number)%Z as F0.
  { rewrite <- (Qfloor_Z 0). apply Qfloor_resp_le.
    apply Qlt_le_weak. exact Hpos. }
  assert (Qceiling number <= 1024)%Z as C3.
  { rewrite <- (Qceiling_Z 1024). apply Qceiling_resp_le. exact Hle. }
  assert (1 <= Qceiling number)%Z as C0.
  { assert (0 < Qceiling number)%Z; [|lia].
    rewrite Zlt_Qlt. apply (Qlt_le_trans _ number); [exact Hpos | exact C1]. }
  rewrite inject_Z_plus in F2.
  unfold Z.sub in C2. rewrite inject_Z_plus, inject_Z_opp in C2.
  change (inject_Z 1) with 1 in *.
  generalize dependent (Qceiling number).
  generalize dependent (Qfloor number).
  intros lo F1 F2 F0 hi C1 C2 FC C3 C0.
  destruct (Qle_bool (key lo) (key hi)).
  - destruct (Z.max_spec lo 1) as [[Hc ->]|[Hc ->]].
    + assert (lo = 0%Z) as -> by lia.
      split; [lia|]. apply Qabs_Qlt_condition.
      change (inject_Z 0) with 0 in *. change (inject_Z 1) with 1 in *.
      split; lra.
    + split; [lia|]. apply Qabs_Qlt_condition. split; lra.
  - rewrite Z.max_l by lia.
    split; [lia|]. apply Qabs_Qlt_condition. split; lra.
Qed.

Lemma inject_Z_pos (z : Z) : (0 < z)%Z -> 0 < inject_Z z.
Proof. intro Hz. change 0 with (inject_Z 0). now rewrite <- Zlt_Qlt. Qed.

Lemma thumbnail_size_fits (W H : Z) :
  (Z.max W H <= 1024)%Z ->
  Pillow.thumbnail_size (1024, 1024)%Z W H = (W, H).
Proof.
  intro Hfit. unfold Pillow.thumbnail_size, Pillow.preserve_aspect_ratio.
  replace ((1024 >=? W)%Z && (1024 >=? H)%Z)%bool with true; [reflexivity|].
  symmetry. apply andb_true_iff. split; apply Z.geb_le; lia.
Qed.

Lemma thumbnail_size_shrinks (W H : Z) :
  (0 < W)%Z -> (0 < H)%Z -> (1024 < Z.max W H)%Z ->
  let out := Pillow.thumbnail_size (1024, 1024)%Z W H in
  Z.max (fst out) (snd out) = 1024%Z
  /\ Qabs (inject_Z (fst out) - 1024 * inject_Z W / inject_Z (Z.max W H)) < 1
  /\ Qabs (inject_Z (snd out) - 1024 * inject_Z H / inject_Z (Z.max W H)) < 1.
Proof.
  intros HW HH Hbig.
  pose proof (inject_Z_pos W HW) as QW.
  pose proof (inject_Z_pos H HH) as QH.
  assert (~ inject_Z W == 0) as NW by lra.
  assert (~ inject_Z H == 0) as NH by lra.
  unfold Pillow.thumbnail_size, Pillow.preserve_aspect_ratio.
  replace ((1024 >=? W)%Z && (1024 >=? H)%Z)%bool with false.
  2:{ symmetry. apply andb_false_iff.
      destruct (Z.max_spec W H) as [[_ E]|[_ E]]; rewrite E in Hbig;
        [right|left]; rewrite Z.geb_leb; apply Z.leb_gt; lia. }
  assert (inject_Z 1024 / inject_Z 1024 == 1) as Hone by reflexivity.
  destruct (Qle_bool (inject_Z W / inject_Z H)
              (inject_Z 1024 / inject_Z 1024)) eqn:Hbranch;
    cbv zeta; cbn [fst snd].
  - (* portrait or square: the height becomes 1024 *)
    apply Qle_bool_iff in Hbranch. rewrite Hone in Hbranch.
    assert (inject_Z W <= inject_Z H) as HWH.
    { apply (Qmult_le_r _ _ (/ inject_Z H)); [now apply Qinv_lt_0_compat|].
      setoid_replace (inject_Z H * / inject_Z H) with 1 by (field; exact NH).
      exact Hbranch. }
    rewrite <- Zle_Qle in HWH. rewrite (Z.max_r W H) by lia.
    set (number := inject_Z 1024 * (inject_Z W / inject_Z H)).
    assert (0 < number) as Npos.
    { unfold number. apply Qmult_lt_0_compat; [reflexivity|].
      apply Qlt_shift_div_l; [exact QH|]. lra. }
    assert (number <= 1024) as Nle.
    { unfold number. change (inject_Z 1024) with 1024. lra. }
    destruct (round_aspect_close number
                (fun n => Qabs (inject_Z W / inject_Z H
                                - inject_Z n / inject_Z 1024))
                Npos Nle) as [Hrange Hclose].
    split; [lia|]. split.
    + setoid_replace (1024 * inject_Z W / inject_Z H) with number
        by (unfold number; change (inject_Z 1024) with 1024; field; exact NH).
      exact Hclose.
    + setoid_replace (1024 * inject_Z H / inject_Z H) with (inject_Z 1024)
        by (change (inject_Z 1024) with 1024; field; exact NH).
      setoid_replace (inject_Z 1024 - inject_Z 1024) with 0 by ring.
      reflexivity.
  - (* landscape: the width becomes 1024 *)
    assert (~ inject_Z W / inject_Z H <= 1) as Hgt.
    { intro Hc. rewrite <- Hone in Hc. apply Qle_bool_iff in Hc. congruence. }
    apply Qnot_le_lt in Hgt.
    assert (inject_Z H < inject_Z W) as HHW.
    { apply (Qmult_lt_r _ _ (/ inject_Z H)); [now apply Qinv_lt_0_compat|].
      setoid_replace (inject_Z H * / inject_Z H) with 1 by (field; exact NH).
      exact Hgt. }
    rewrite <- Zlt_Qlt in HHW. rewrite (Z.max_l W H) by lia.
    set (number := inject_Z 1024 / (inject_Z W / inject_Z H)).
    assert (number == 1024 * inject_Z H / inject_Z W) as Hnum.
    { unfold number. change (inject_Z 1024) with 1024. field.
      split; assumption. }
    assert (0 < number) as Npos.
    { rewrite Hnum. apply Qlt_shift_div_l; [exact QW|]. lra. }
    assert (number <= 1024) as Nle.
    { rewrite Hnum. apply Qle_shift_div_r; [exact QW|].
      rewrite Zlt_Qlt in HHW. lra. }
    destruct (round_aspect_close number
                (fun n => if (n =? 0)%Z then 0
                          else Qabs (inject_Z W / inject_Z H
                                     - inject_Z 1024 / inject_Z n))
                Npos Nle) as [Hrange Hclose].
    split; [lia|]. split.
    + setoid_replace (1024 * inject_Z W / inject_Z W) with (inject_Z 1024)
        by (change (inject_Z 1024) with 1024; field; exact NW).
      setoid_replace (inject_Z 1024 - inject_Z 1024) with 0 by ring.
      reflexivity.
    + rewrite <- Hnum. exact Hclose.
Qed.

End PillowFacts.

(** ** The handler *)

Section HandlerFacts.

Context {World : Type} {services : Services World}.

(** *** The monad and the loop *)

Lemma for_each_app {A : Type} (body : A -> M World unit) (xs ys : list A)
    (s : State World) :
  for_each body (xs ++ ys) s =
  match for_each body xs s with
  | (inr _, s1) => for_each body ys s1
  | (inl e, s1) => (inl e, s1)
  end.
Proof.
  revert s. induction xs as [|x xs IH]; intro s; simpl.
  - reflexivity.
  - unfold bind. destruct (body x s) as [[e|[]] s1]; [reflexivity|apply IH].
Qed.

Lemma for_each_processed (records : list S3Event.Record_)
    (s s' : State World) :
  for_each process_record records s = (inr tt, s') <->
  processed_all records s s'.
Proof.
  revert s. induction records as [|r records IH]; intro s; simpl.
  - unfold ret. split.
    + intro E. injection E as <-. constructor.
    + intro P. inversion P. reflexivity.
  - unfold bind. split.
    + destruct (process_record r s) as [[e|[]] s1] eqn:E; [discriminate|].
      intro F. apply IH in F. econstructor; eassumption.
    + intro P. inversion P as [|? ? ? s1 ? E F]; subst.
      rewrite E. now apply IH.
Qed.

(** *** The body of the loop follows one of its paths *)

Lemma process_record_runs (record : S3Event.Record_) (s : State World) :
  item_run record s (process_record record s).
Proof.
  unfold process_record.
  destruct (String.eqb_spec
              (S3Event.name (S3Event.bucket (S3Event.s3 record)))
              SOURCE_BUCKET) as [Hb|Hb]; cbn [negb]; cbv beta iota.
  2:{ now apply run_skipped. }
  unfold bind, store_call, lift, ambient.
  destruct (s3_get_object
              (S3Event.name (S3Event.bucket (S3Event.s3 record)))
              (S3Event.key (S3Event.object (S3Event.s3 record)))
              (world s)) as [[e|obj] w1] eqn:Hget.
  { now apply run_read_raised. }
  destruct (Image_open (Body obj)) as [e|opened] eqn:Hopen.
  { now apply (run_open_raised record s obj). }
  destruct (Image_save (thumbnail opened (1024, 1024))
              (format (thumbnail opened (1024, 1024))) true 70)
    as [e|output_buffer] eqn:Hsave.
  { now apply (run_save_raised record s obj w1 opened). }
  cbn [world trace].
  match goal with
  | |- context [s3_put_object ?b ?k ?d ?c w1] =>
      destruct (s3_put_object b k d c w1) as [[e|[]] w2] eqn:Hput
  end.
  { rewrite <- app_assoc. now apply (run_put_raised record s obj w1 opened). }
  cbn [world trace].
  destruct (uuid4 w2) as [image_id w3] eqn:Hid.
  cbn [world trace].
  destruct (utcnow_isoformat w3) as [resized_at w4] eqn:Hnow.
  cbn [world trace].
  match goal with
  | |- context [table_put_item ?i w4] =>
      destruct (table_put_item i w4) as [[e|[]] w5] eqn:Hitem
  end;
    cbn [outcome_of]; rewrite <- app_assoc, <- app_assoc; cbn [app].
  - now apply (run_item_raised record s obj w1 opened output_buffer w2
                 image_id w3 resized_at w4).
  - now apply (run_completed record s obj w1 opened output_buffer w2
                 image_id w3 resized_at w4).
Qed.

(** *** The image after [thumbnail] *)

Lemma format_thumbnail (image : Image) (box : Z * Z) :
  format (thumbnail image box) = format image.
Proof.
  unfold thumbnail.
  destruct (Pillow.preserve_aspect_ratio box (width image) (height image))
    as [final_size|]; [|reflexivity].
  now destruct ((fst (size image) =? fst final_size)
                && (snd (size image) =? snd final_size)).
Qed.

Lemma size_thumbnail (image : Image) (box : Z * Z) :
  size (thumbnail image box)
  = Pillow.thumbnail_size box (width image) (height image).
Proof.
  unfold thumbnail, Pillow.thumbnail_size, width, height.
  destruct (Pillow.preserve_aspect_ratio box (fst (size image))
              (snd (size image))) as [final_size|].
  - destruct ((fst (size image) =? fst final_size)
              && (snd (size image) =? snd final_size)) eqn:E.
    + apply andb_true_iff in E. destruct E as [E1 E2].
      apply Z.eqb_eq in E1, E2.
      destruct (size image), final_size. simpl in *. congruence.
    + reflexivity.
  - now destruct (size image).
Qed.

(** C1: for a decoded image of width W and height H, the image handed to
    the encoder has size (W, H) when max(W, H) <= 1024; otherwise its
    larger side is exactly 1024 and each side is within one pixel of the
    side scaled by 1024 / max(W, H), so the aspect ratio is kept up to
    that rounding. *)
Theorem thumbnail_shrinks_to_fit (image : Image) :
  0 < width image -> 0 < height image ->
  let W := width image in
  let H := height image in
  let out := thumbnail image (1024, 1024) in
  (Z.max W H <= 1024 -> size out = (W, H))
  /\ (1024 < Z.max W H ->
      Z.max (width out) (height out) = 1024
      /\ (Qabs (inject_Z (width out)
                - 1024 * inject_Z W / inject_Z (Z.max W H)) < 1)%Q
      /\ (Qabs (inject_Z (height out)
                - 1024 * inject_Z H / inject_Z (Z.max W H)) < 1)%Q).
Proof.
  intros HW HH W H out.
  assert (size out = Pillow.thumbnail_size (1024, 1024) W H) as E
    by apply size_thumbnail.
  unfold width, height. rewrite E. split.
  - apply thumbnail_size_fits.
  - apply thumbnail_size_shrinks; assumption.
Qed.

(** *** Skipped notifications and the empty batch *)

Lemma process_record_foreign (record : S3Event.Record_) (s : State World) :
  record_bucket record <> SOURCE_BUCKET ->
  process_record record s = (inr tt, s).
Proof.
  intro Hb. unfold process_record.
  apply String.eqb_neq in Hb. unfold record_bucket in Hb.
  now rewrite Hb.
Qed.

(** C3: a notification whose bucket name differs from the configured
    source bucket leaves the world and the trace of store calls as they
    were (no read, no write, no insert), and the loop goes on: a batch
    holding it runs exactly as the batch without it. *)
Theorem foreign_bucket_is_skipped
    (before after : list S3Event.Record_) (record : S3Event.Record_)
    (s : State World) :
  record_bucket record <> SOURCE_BUCKET ->
  process_record record s = (inr tt, s)
  /\ lambda_handler {| S3Event.Records := before ++ record :: after |} s
     = lambda_handler {| S3Event.Records := before ++ after |} s.
Proof.
  intro Hb. split; [now apply process_record_foreign|].
  unfold lambda_handler, bind. cbn [S3Event.Records].
  rewrite !for_each_app.
  destruct (for_each process_record before s) as [[e|[]] s1]; [reflexivity|].
  cbn [for_each]. unfold bind.
  now rewrite process_record_foreign.
Qed.

(** C10: on an event with no records the handler makes no call at all
    (world and trace are untouched) and returns [{"status": "done"}]. *)
Theorem empty_batch_is_noop (s : State World) :
  lambda_handler {| S3Event.Records := [] |} s = (inr status_done, s).
Proof. reflexivity. Qed.

(** *** The status and the first failure *)

(** C9: the handler returns a value exactly when every record of the
    batch, in order, was processed without raising; the value is then
    [{"status": "done"}] and the state is the one left by the last
    record. *)
Theorem done_after_every_item
    (event : S3Event.Event) (s s' : State World)
    (status : list (string * string)) :
  lambda_handler event s = (inr status, s')
  <-> status = status_done
      /\ processed_all (S3Event.Records event) s s'.
Proof.
  unfold lambda_handler, bind, ret. split.
  - destruct (for_each process_record (S3Event.Records event) s)
      as [[e|[]] s1] eqn:E; [discriminate|].
    intro R. injection R as <- <-.
    split; [reflexivity|]. now apply for_each_processed.
  - intros [-> P]. apply for_each_processed in P. now rewrite P.
Qed.

Lemma forallb_removelast {A : Type} (f : A -> bool) (l : list A) :
  forallb f l = true -> forallb f (removelast l) = true.
Proof.
  induction l as [|a l IH]; [auto|].
  intro E. cbn [forallb] in E. apply andb_true_iff in E. destruct E as [Ea El].
  destruct l as [|b l]; [reflexivity|].
  change (removelast (a :: b :: l)) with (a :: removelast (b :: l)).
  cbn [forallb]. rewrite Ea. now apply IH.
Qed.

(** Whatever the body of the loop does, it only appends to the trace; a
    call that raised is the last one made, and a body that ends normally
    made only calls that returned. *)
Lemma item_run_trace (record : S3Event.Record_) (s s' : State World)
    (res : Exception + unit) :
  item_run record s (res, s') ->
  exists added,
    trace s' = (trace s ++ added)%list
    /\ forallb returned (removelast added) = true
    /\ (forall u, res = inr u -> forallb returned added = true).
Proof.
  intro R. inversion R; subst; cbn [trace];
    try (eexists; split; [reflexivity|];
         split; [reflexivity | intros; (discriminate || reflexivity)]).
  exists []. rewrite app_nil_r. auto.
Qed.

Lemma processed_all_trace (records : list S3Event.Record_)
    (s s' : State World) :
  processed_all records s s' ->
  exists added,
    trace s' = (trace s ++ added)%list /\ forallb returned added = true.
Proof.
  induction 1 as [s|record records s s1 s2 E _ IH].
  - exists []. now rewrite app_nil_r.
  - pose proof (process_record_runs record s) as R. rewrite E in R.
    destruct (item_run_trace _ _ _ _ R) as (a1 & T1 & _ & A1).
    destruct IH as (a2 & T2 & A2).
    exists (a1 ++ a2)%list. split.
    + now rewrite T2, T1, app_assoc.
    + rewrite forallb_app, (A1 tt eq_refl), A2. reflexivity.
Qed.

(** C5: when a record raises, whatever the exception and whichever call
    raised it, the handler ends with that same exception in the state
    the failing record left: the records after it are not touched, no
    status is returned, and in the whole invocation no call was made
    after one that raised (nothing is caught, nothing is retried). *)
Theorem failure_aborts_the_batch
    (before after : list S3Event.Record_) (record : S3Event.Record_)
    (s s1 s2 : State World) (e : Exception) :
  processed_all before s s1 ->
  process_record record s1 = (inl e, s2) ->
  lambda_handler {| S3Event.Records := before ++ record :: after |} s
  = (inl e, s2)
  /\ exists added,
       trace s2 = (trace s ++ added)%list
       /\ forallb returned (removelast added) = true.
Proof.
  intros P F. split.
  - unfold lambda_handler, bind. cbn [S3Event.Records].
    rewrite for_each_app.
    apply for_each_processed in P. rewrite P.
    cbn [for_each]. unfold bind. now rewrite F.
  - destruct (processed_all_trace _ _ _ P) as (a1 & T1 & A1).
    pose proof (process_record_runs record s1) as R. rewrite F in R.
    destruct (item_run_trace _ _ _ _ R) as (a2 & T2 & A2 & _).
    exists (a1 ++ a2)%list. split.
    + now rewrite T2, T1, app_assoc.
    + destruct a2 as [|en a2].
      * rewrite app_nil_r. now apply forallb_removelast.
      * rewrite removelast_app by discriminate.
        now rewrite forallb_app, A1, A2.
Qed.

(** C6: when the bytes read for a record do not decode, the record
    raises the decoder's exception right after the read: the only call
    added to the trace is the [get_object], the world is the one the read
    left, so neither [put_object] nor [put_item] is attempted, and the
    invocation fails with that exception. *)
Theorem undecodable_fails_before_writes
    (before after : list S3Event.Record_) (record : S3Event.Record_)
    (s0 s : State World) (obj : S3Object) (w1 : World) (e : Exception) :
  record_bucket record = SOURCE_BUCKET ->
  processed_all before s0 s ->
  s3_get_object (record_bucket record) (record_key record) (world s)
  = (inr obj, w1) ->
  Image_open (Body obj) = inl e ->
  let s' :=
    mkState w1
      (trace s ++
       [(GetObject (record_bucket record) (record_key record), Returned)]) in
  process_record record s = (inl e, s')
  /\ lambda_handler {| S3Event.Records := before ++ record :: after |} s0
     = (inl e, s').
Proof.
  intros Hb P Hget Hopen s'.
  assert (process_record record s = (inl e, s')) as F.
  { unfold process_record, record_bucket, record_key in *.
    rewrite (proj2 (String.eqb_eq _ _) Hb). cbn [negb].
    unfold bind, store_call, lift.
    rewrite Hget, Hopen. reflexivity. }
  split; [exact F|].
  unfold lambda_handler, bind. cbn [S3Event.Records].
  rewrite for_each_app.
  apply for_each_processed in P. rewrite P.
  cbn [for_each]. unfold bind. now rewrite F.
Qed.

(** *** What a record writes *)

(** C2: every [put_object] and every [put_item] made for a record names
    the destination key "resized-" followed by the basename of the source
    key, where the basename is what follows the last slash of the key
    (the whole key when it has none); for the nested key
    "folder/sub/photo.jpg" that is "resized-photo.jpg".  And a record of
    the source bucket that is processed without raising does write: its
    calls are the read, a [put_object] under that key and a [put_item]
    whose [destKey] is that key, all three returned. *)
Theorem dest_key_is_resized_basename
    (record : S3Event.Record_) (s : State World) :
  exists added dir,
    trace (snd (process_record record s)) = (trace s ++ added)%list
    /\ Forall (names_dest_key ("resized-" ++ basename (record_key record)))
         added
    /\ record_key record = dir ++ basename (record_key record)
    /\ (dir = "" \/ PyStr.ends_with "/"%char dir = true)
    /\ PyStr.contains "/"%char (basename (record_key record)) = false
    /\ (record_key record = "folder/sub/photo.jpg" ->
        Forall (names_dest_key "resized-photo.jpg") added)
    /\ (record_bucket record = SOURCE_BUCKET ->
        forall u, fst (process_record record s) = inr u ->
        exists body ct item,
          added
          = [(GetObject SOURCE_BUCKET (record_key record), Returned);
             (PutObject DEST_BUCKET
                ("resized-" ++ basename (record_key record)) body ct,
              Returned);
             (PutItem item, Returned)]
          /\ destKey item = "resized-" ++ basename (record_key record)).
Proof.
  destruct (basename_split (record_key record)) as (dir & Hsplit & Hdir & Hno).
  pose proof (process_record_runs record s) as R.
  destruct (process_record record s) as [res s'].
  assert (exists added,
             trace s' = (trace s ++ added)%list
             /\ Forall (names_dest_key
                          ("resized-" ++ basename (record_key record))) added
             /\ (record_bucket record = SOURCE_BUCKET ->
                 forall u, res = inr u ->
                 exists body ct item,
                   added
                   = [(GetObject SOURCE_BUCKET (record_key record), Returned);
                      (PutObject DEST_BUCKET
                         ("resized-" ++ basename (record_key record))
                         body ct,
                       Returned);
                      (PutItem item, Returned)]
                   /\ destKey item
                      = "resized-" ++ basename (record_key record)))
    as (added & T & F & W).
  { inversion R; subst; cbn [trace]; unfold record_key, record_bucket;
      repeat match goal with x := _ |- _ => subst x end.
    - exists []. rewrite app_nil_r.
      split; [reflexivity|]. split; [constructor|].
      intro Hb. contradiction.
    - eexists. split; [reflexivity|]. split; [repeat constructor|].
      intros _ u Hu. discriminate Hu.
    - eexists. split; [reflexivity|]. split; [repeat constructor|].
      intros _ u Hu. discriminate Hu.
    - eexists. split; [reflexivity|]. split; [repeat constructor|].
      intros _ u Hu. discriminate Hu.
    - eexists. split; [reflexivity|]. split; [repeat constructor|].
      intros _ u Hu. discriminate Hu.
    - eexists. split; [reflexivity|]. split; [repeat constructor|].
      intros _ u Hu. discriminate Hu.
    - eexists. split; [reflexivity|]. split; [repeat constructor|].
      intros Hb u _. rewrite Hb. eexists _, _, _.
      split; reflexivity. }
  exists added, dir. cbn [fst snd].
  repeat (split; [assumption|]).
  split; [|exact W].
  intro K. now rewrite K in F.
Qed.

(** C4: a record of the source bucket that is processed without raising
    adds three calls to the trace, all of which returned: the read, one
    [put_object] and one [put_item].  In the item, [sizeOriginal] and
    [contentType] are the length and type the read reported,
    [destBucket] and [destKey] are the bucket and key of the
    [put_object], [sourceBucket] and [sourceKey] are the notification's,
    and [imageId] is what the generator returned when asked after the
    write. *)
Theorem success_inserts_one_record
    (record : S3Event.Record_) (s s' : State World) :
  record_bucket record = SOURCE_BUCKET ->
  process_record record s = (inr tt, s') ->
  exists obj w1 b k body w2 item,
    s3_get_object (record_bucket record) (record_key record) (world s)
    = (inr obj, w1)
    /\ s3_put_object b k body (ContentType obj) w1 = (inr tt, w2)
    /\ trace s'
       = (trace s ++
          [(GetObject (record_bucket record) (record_key record), Returned);
           (PutObject b k body (ContentType obj), Returned);
           (PutItem item, Returned)])%list
    /\ imageId item = fst (uuid4 w2)
    /\ sourceBucket item = record_bucket record
    /\ sourceKey item = record_key record
    /\ destBucket item = b
    /\ destKey item = k
    /\ contentType item = ContentType obj
    /\ sizeOriginal item = ContentLength obj.
Proof.
  intros Hb E.
  pose proof (process_record_runs record s) as R. rewrite E in R.
  inversion R as [Hn| | | | | |
                  obj w1 opened body w2 image_id w3 resized_at w4 w5
                  key bucket image output_key item _ Hget _ _ Hput Hid _ _];
    subst.
  - contradiction.
  - exists obj, w1, DEST_BUCKET, output_key, body, w2, item.
    cbn [trace]. unfold record_bucket, record_key.
    repeat (split; [first [assumption | reflexivity]|]); try reflexivity.
    subst item. cbn [imageId]. now rewrite Hid.
Qed.

(** C8, as the code has it: once the bytes of a record have decoded to
    an image, the encoder is called on the thumbnail with the format
    detected by the decoder (which the thumbnail still carries),
    [optimize=True] and [quality=70].  When it returns, its bytes are the
    body of the [put_object] that follows the read, under the content
    type the read reported.  When it raises, as for a format the codec
    reads but does not write, the record raises that exception right
    after the read: nothing is written and nothing is recorded. *)
Theorem reencodes_in_detected_format
    (record : S3Event.Record_) (s : State World)
    (obj : S3Object) (w1 : World) (image : Image) :
  record_bucket record = SOURCE_BUCKET ->
  s3_get_object (record_bucket record) (record_key record) (world s)
  = (inr obj, w1) ->
  Image_open (Body obj) = inr image ->
  format (thumbnail image (1024, 1024)) = format image
  /\ match Image_save (thumbnail image (1024, 1024)) (format image) true 70
     with
     | inr body =>
         exists outcome rest,
           trace (snd (process_record record s))
           = (trace s ++
              (GetObject (record_bucket record) (record_key record),
               Returned)
              :: (PutObject DEST_BUCKET
                    ("resized-" ++ basename (record_key record))
                    body (ContentType obj),
                  outcome)
              :: rest)%list
     | inl e =>
         process_record record s
         = (inl e,
            mkState w1
              (trace s ++
               [(GetObject (record_bucket record) (record_key record),
                 Returned)]))
     end.
Proof.
  intros Hb Hget Hopen.
  split; [apply format_thumbnail|].
  rewrite <- (format_thumbnail image (1024, 1024)).
  unfold record_bucket, record_key in *.
  pose proof (process_record_runs record s) as R.
  destruct (Image_save (thumbnail image (1024, 1024))
              (format (thumbnail image (1024, 1024))) true 70)
    as [e|body] eqn:Hsave.
  - unfold process_record.
    rewrite (proj2 (String.eqb_eq _ _) Hb). cbn [negb].
    unfold bind, store_call, lift.
    rewrite Hget, Hopen, Hsave. reflexivity.
  - destruct (process_record record s) as [res s'].
    inversion R; subst; cbn [snd trace];
      repeat match goal with
             | x := _ |- _ => subst x
             end;
      try contradiction; try congruence.
    + assert (obj0 = obj) by congruence; subst obj0.
      assert (opened = image) by congruence; subst opened.
      assert (output_buffer = body) by congruence; subst output_buffer.
      eexists _, _. reflexivity.
    + assert (obj0 = obj) by congruence; subst obj0.
      assert (opened = image) by congruence; subst opened.
      assert (output_buffer = body) by congruence; subst output_buffer.
      eexists _, _. reflexivity.
    + assert (obj0 = obj) by congruence; subst obj0.
      assert (opened = image) by congruence; subst opened.
      assert (output_buffer = body) by congruence; subst output_buffer.
      eexists _, _. reflexivity.
Qed.

(** C7, as the code has it: for a record that is processed without
    raising, every derivative written has exactly one metadata record
    with its bucket and key.  When a record raises, either no derivative
    was written for it, or the [put_object] returned and the [put_item]
    that followed raised: the derivative then has no metadata record,
    and no further call is made for it. *)
Theorem record_follows_derivative
    (record : S3Event.Record_) (s : State World) :
  exists added,
    trace (snd (process_record record s)) = (trace s ++ added)%list
    /\ match fst (process_record record s) with
       | inr _ => one_record_per_derivative added = true
       | inl e =>
           derivatives added = []
           \/ exists read b k body ct item,
                added = [read;
                         (PutObject b k body ct, Returned);
                         (PutItem item, Raised e)]
                /\ derivatives added = [(b, k)]
                /\ destBucket item = b /\ destKey item = k
                /\ records_for b k added = []
       end.
Proof.
  pose proof (process_record_runs record s) as R.
  destruct (process_record record s) as [res s'].
  inversion R; subst; cbn [fst snd trace].
  - exists []. rewrite app_nil_r. auto.
  - eexists. split; [reflexivity|]. now left.
  - eexists. split; [reflexivity|]. now left.
  - eexists. split; [reflexivity|]. now left.
  - eexists. split; [reflexivity|]. now left.
  - eexists. split; [reflexivity|]. right.
    eexists _, _, _, _, _, _. split; [reflexivity|].
    repeat split; reflexivity.
  - eexists. split; [reflexivity|].
    unfold one_record_per_derivative.
    cbn [derivatives records_for forallb fst snd].
    subst item. cbn [destBucket destKey].
    now rewrite !String.eqb_refl.
Qed.

End HandlerFacts.

(** ** The theorems at work on the in-memory services *)

Example nested_key_run :
  derivatives (trace (snd (process_record Demo.photo_record (Demo.start true))))
  = [(DEST_BUCKET, "resized-photo.jpg")].
Proof. vm_compute. reflexivity. Qed.

(** A batch of two notifications, one of them for another bucket: one
    read, one write, one record, and the status. *)
Example one_of_two_matches :
  let run :=
    lambda_handler
      {| S3Event.Records := [Demo.foreign_record; Demo.photo_record] |}
      (Demo.start true) in
  fst run = inr status_done
  /\ map fst (trace (snd run))
     = [GetObject SOURCE_BUCKET "folder/sub/photo.jpg";
        PutObject DEST_BUCKET "resized-photo.jpg"
          Demo.resized_photo_bytes "image/jpeg";
        PutItem
          {| imageId := "id-0";
             sourceBucket := SOURCE_BUCKET;
             sourceKey := "folder/sub/photo.jpg";
             destBucket := DEST_BUCKET;
             destKey := "resized-photo.jpg";
             contentType := "image/jpeg";
             sizeOriginal := 9;
             resizedAt := "2024-01-01T00:00:00" |}]
  /\ Demo.table (world (snd run)) <> [].
Proof. vm_compute. repeat split. discriminate. Qed.

Lemma thumbnail_shrinks_to_fit_witness :
  Z.max (width (thumbnail Demo.wide_image (1024, 1024)))
        (height (thumbnail Demo.wide_image (1024, 1024))) = 1024
  /\ (Qabs (inject_Z (height (thumbnail Demo.wide_image (1024, 1024)%Z))
            - 1024 * inject_Z 1000 / inject_Z (Z.max 2000 1000)) < 1)%Q.
Proof.
  destruct (thumbnail_shrinks_to_fit Demo.wide_image) as [_ Hbig];
    [reflexivity | reflexivity |].
  destruct Hbig as (Hmax & _ & Hheight); [reflexivity|].
  split; [exact Hmax | exact Hheight].
Defined.

Lemma foreign_bucket_is_skipped_witness :
  process_record Demo.foreign_record Demo.after_photo
  = (inr tt, Demo.after_photo)
  /\ lambda_handler
       {| S3Event.Records :=
            [Demo.photo_record] ++ Demo.foreign_record :: [Demo.notes_record] |}
       Demo.after_photo
     = lambda_handler
         {| S3Event.Records := [Demo.photo_record] ++ [Demo.notes_record] |}
         Demo.after_photo.
Proof.
  apply (foreign_bucket_is_skipped
           [Demo.photo_record] [Demo.notes_record] Demo.foreign_record).
  vm_compute. discriminate.
Defined.

Lemma failure_aborts_the_batch_witness :
  lambda_handler
    {| S3Event.Records :=
         [Demo.foreign_record; Demo.photo_record]
         ++ Demo.notes_record :: [Demo.photo_record] |}
    (Demo.start true)
  = (inl DecodeError, Demo.after_notes)
  /\ exists added,
       trace Demo.after_notes = (trace (Demo.start true) ++ added)%list
       /\ forallb returned (removelast added) = true.
Proof.
  apply (failure_aborts_the_batch
           [Demo.foreign_record; Demo.photo_record] [Demo.photo_record]
           Demo.notes_record (Demo.start true) Demo.after_photo).
  - apply for_each_processed. vm_compute. reflexivity.
  - vm_compute. reflexivity.
Defined.

Lemma undecodable_fails_before_writes_witness :
  process_record Demo.notes_record Demo.after_photo
  = (inl DecodeError,
     mkState (world Demo.after_photo)
       (trace Demo.after_photo ++
        [(GetObject (record_bucket Demo.notes_record)
            (record_key Demo.notes_record), Returned)]))
  /\ lambda_handler
       {| S3Event.Records :=
            [Demo.photo_record] ++ Demo.notes_record :: [Demo.photo_record] |}
       (Demo.start true)
     = (inl DecodeError,
        mkState (world Demo.after_photo)
          (trace Demo.after_photo ++
           [(GetObject (record_bucket Demo.notes_record)
               (record_key Demo.notes_record), Returned)])).
Proof.
  apply (undecodable_fails_before_writes
           [Demo.photo_record] [Demo.photo_record] Demo.notes_record
           (Demo.start true) Demo.after_photo Demo.notes).
  - reflexivity.
  - apply for_each_processed. vm_compute. reflexivity.
  - vm_compute. reflexivity.
  - reflexivity.
Defined.

Lemma success_inserts_one_record_witness :
  exists obj w1 b k body w2 item,
    s3_get_object (record_bucket Demo.photo_record)
      (record_key Demo.photo_record) (world (Demo.start true))
    = (inr obj, w1)
    /\ s3_put_object b k body (ContentType obj) w1 = (inr tt, w2)
    /\ trace Demo.after_photo
       = (trace (Demo.start true) ++
          [(GetObject (record_bucket Demo.photo_record)
              (record_key Demo.photo_record), Returned);
           (PutObject b k body (ContentType obj), Returned);
           (PutItem item, Returned)])%list
    /\ imageId item = fst (uuid4 w2)
    /\ sourceBucket item = record_bucket Demo.photo_record
    /\ sourceKey item = record_key Demo.photo_record
    /\ destBucket item = b
    /\ destKey item = k
    /\ contentType item = ContentType obj
    /\ sizeOriginal item = ContentLength obj.
Proof.
  apply (success_inserts_one_record Demo.photo_record (Demo.start true)).
  - reflexivity.
  - vm_compute. reflexivity.
Defined.

Lemma reencodes_in_detected_format_witness :
  format (thumbnail Demo.wide_image (1024, 1024)) = format Demo.wide_image
  /\ exists outcome rest,
       trace (snd (process_record Demo.photo_record (Demo.start true)))
       = (trace (Demo.start true) ++
          (GetObject (record_bucket Demo.photo_record)
             (record_key Demo.photo_record), Returned)
          :: (PutObject DEST_BUCKET
                ("resized-" ++ basename (record_key Demo.photo_record))
                Demo.resized_photo_bytes (ContentType Demo.photo),
              outcome)
          :: rest)%list.
Proof.
  exact (reencodes_in_detected_format Demo.photo_record (Demo.start true)
           Demo.photo (Demo.stocked true) Demo.wide_image
           eq_refl eq_refl eq_refl).
Defined.

(** With the table offline the photo is written to the destination
    bucket and the insert raises: a derivative with no metadata record. *)
Lemma derivative_without_record :
  fst Demo.offline_run = inl StoreWriteError
  /\ derivatives (trace (snd Demo.offline_run))
     = [(DEST_BUCKET, "resized-photo.jpg")]
  /\ records_for DEST_BUCKET "resized-photo.jpg"
       (trace (snd Demo.offline_run)) = []
  /\ one_record_per_derivative (trace (snd Demo.offline_run)) = false.
Proof. vm_compute. repeat split. Qed.

(** The icon decodes, the encoder does not know its format: the record
    raises after the read, no derivative is written, nothing is recorded. *)
Lemma decodable_but_not_encodable :
  @Image_open Demo.World Xpm.services (Body Xpm.icon) = inr Xpm.icon_image
  /\ Xpm.icon_run
     = (inl (OtherException "KeyError"),
        mkState Xpm.world [(GetObject SOURCE_BUCKET "icon.xpm", Returned)])
  /\ derivatives (trace (snd Xpm.icon_run)) = []
  /\ inserted (trace (snd Xpm.icon_run)) = [].
Proof. vm_compute. repeat split. Qed.

(** * Further properties of the handler *)

(** ** Keys in folders *)

Lemma rfind_present (c : ascii) (s : string) :
  PyStr.contains c s = true -> 0 <= PyStr.rfind c s.
Proof.
  intro Hc. pose proof (rfind_lower c s) as L.
  destruct (Z.eq_dec (PyStr.rfind c s) (-1)) as [E|E]; [|lia].
  apply rfind_absent in E. congruence.
Qed.

Lemma contains_app (c : ascii) (s t : string) :
  PyStr.contains c (s ++ t) = PyStr.contains c s || PyStr.contains c t.
Proof.
  induction s as [|a s IH]; simpl; [reflexivity|].
  now rewrite IH, orb_assoc.
Qed.

(** The basename of a name put in a folder is the name. *)
Lemma basename_in_folder (dir name : string) :
  PyStr.contains "/"%char name = false ->
  basename (dir ++ "/" ++ name) = name.
Proof.
  intro Hname. unfold basename, PyStr.slice_from.
  change ("/" ++ name) with (String "/"%char name).
  induction dir as [|a dir IH].
  - simpl. apply rfind_absent in Hname. rewrite Hname. reflexivity.
  - cbn [append PyStr.rfind].
    assert (0 <= PyStr.rfind "/"%char (dir ++ String "/"%char name)) as Hpos.
    { apply rfind_present. rewrite contains_app. simpl.
      now rewrite orb_true_r. }
    destruct (0 <=? PyStr.rfind "/"%char (dir ++ String "/"%char name)) eqn:E;
      [|apply Z.leb_gt in E; lia].
    replace (Z.to_nat
               (PyStr.rfind "/"%char (dir ++ String "/"%char name) + 1 + 1))
      with (S (Z.to_nat
                 (PyStr.rfind "/"%char (dir ++ String "/"%char name) + 1)))
      by lia.
    exact IH.
Qed.

Lemma resized_key_is_flat (key : string) :
  flat_dest_key ("resized-" ++ basename key) = true.
Proof.
  destruct (basename_split key) as (_ & _ & _ & Hno).
  unfold flat_dest_key. apply andb_true_iff. split.
  - apply String.prefix_correct. simpl.
    now destruct (basename key).
  - simpl. now rewrite Hno.
Qed.

(** ** Projections of a trace *)

Lemma reads_app (a b : list Entry) :
  reads (a ++ b) = (reads a ++ reads b)%list.
Proof.
  induction a as [|[[bk k|bk k body ct|item] o] a IH]; simpl;
    now rewrite ?IH.
Qed.

Lemma derivatives_app (a b : list Entry) :
  derivatives (a ++ b) = (derivatives a ++ derivatives b)%list.
Proof.
  induction a as [|[[bk k|bk k body ct|item] [|e]] a IH]; simpl;
    now rewrite ?IH.
Qed.

Lemma inserted_app (a b : list Entry) :
  inserted (a ++ b) = (inserted a ++ inserted b)%list.
Proof.
  induction a as [|[[bk k|bk k body ct|item] [|e]] a IH]; simpl;
    now rewrite ?IH.
Qed.

Lemma records_follow_writes_app (a b : list Entry) :
  records_follow_writes a -> records_follow_writes b ->
  records_follow_writes (a ++ b).
Proof.
  intros Ha Hb before item outcome after E.
  apply app_eq_app in E. destruct E as (l & [[Ea Eb]|[Ea Eb]]).
  - destruct l as [|x l].
    + cbn [app] in Eb.
      destruct (Hb [] item outcome after (eq_sym Eb))
        as ([|? ?] & ? & ? & Habs); discriminate Habs.
    + cbn [app] in Eb. injection Eb as <- _.
      apply (Ha before item outcome l). exact Ea.
  - destruct (Hb l item outcome after Eb) as (earlier & body & ct & El).
    exists (a ++ earlier)%list, body, ct.
    now rewrite Ea, El, app_assoc.
Qed.

(** ** From one record to the batch *)

Section BatchFacts.

Context {World : Type} {services : Services World}.

Lemma lambda_handler_for_each (event : S3Event.Event) (s : State World) :
  snd (lambda_handler event s)
  = snd (for_each process_record (S3Event.Records event) s)
  /\ (forall e,
        fst (lambda_handler event s) = inl e <->
        fst (for_each process_record (S3Event.Records event) s) = inl e).
Proof.
  unfold lambda_handler, bind, ret.
  destruct (for_each process_record (S3Event.Records event) s)
    as [[e|[]] s1]; cbn [fst snd]; split; try reflexivity;
    intro e'; split; intro E;
    (discriminate E || (injection E as <-; reflexivity)).
Qed.

(** A property of the entries a record adds, kept by concatenation, holds
    of the entries the whole loop adds, however the loop ends. *)
Lemma for_each_added (P : list Entry -> Prop) :
  P [] ->
  (forall a b, P a -> P b -> P (a ++ b)%list) ->
  (forall record s,
      exists a,
        trace (snd (process_record record s)) = (trace s ++ a)%list /\ P a) ->
  forall records (s : State World),
    exists a,
      trace (snd (for_each process_record records s)) = (trace s ++ a)%list
      /\ P a.
Proof.
  intros Pnil Papp Pitem records.
  induction records as [|record records IH]; intro s.
  - exists []. cbn. now rewrite app_nil_r.
  - cbn [for_each]. unfold bind.
    destruct (Pitem record s) as (a & Ta & Pa).
    destruct (process_record record s) as [[e|[]] s1]; cbn [snd] in *.
    + now exists a.
    + destruct (IH s1) as (b & Tb & Pb).
      exists (a ++ b)%list. split; [|now apply Papp].
      now rewrite Tb, Ta, app_assoc.
Qed.

(** What a record of the source bucket adds when it ends normally. *)
Lemma process_record_completed (record : S3Event.Record_)
    (s s' : State World) :
  process_record record s = (inr tt, s') ->
  (record_bucket record <> SOURCE_BUCKET /\ s' = s)
  \/ (record_bucket record = SOURCE_BUCKET
      /\ exists body ct item,
           trace s'
           = (trace s ++
              [(GetObject SOURCE_BUCKET (record_key record), Returned);
               (PutObject DEST_BUCKET
                  ("resized-" ++ basename (record_key record)) body ct,
                Returned);
               (PutItem item, Returned)])%list
           /\ destBucket item = DEST_BUCKET
           /\ destKey item = "resized-" ++ basename (record_key record)).
Proof.
  intro E. pose proof (process_record_runs record s) as R. rewrite E in R.
  unfold record_bucket, record_key.
  inversion R; subst.
  - now left.
  - right. split; [assumption|].
    repeat match goal with x := _ |- _ => subst x end.
    eexists _, _, _. cbn [trace].
    match goal with H : _ = SOURCE_BUCKET |- _ => rewrite H end.
    repeat split; reflexivity.
Qed.

(** X1: in one invocation, however it ends, every [get_object] is made
    on the source bucket, every [put_object] on the destination bucket,
    and every item names the source and the destination bucket; the two
    buckets differ, so the handler never writes where it reads. *)
Theorem calls_stay_in_their_buckets
    (event : S3Event.Event) (s : State World) :
  SOURCE_BUCKET <> DEST_BUCKET
  /\ exists added,
       trace (snd (lambda_handler event s)) = (trace s ++ added)%list
       /\ Forall confined added.
Proof.
  split; [discriminate|].
  rewrite (proj1 (lambda_handler_for_each event s)).
  apply (for_each_added (Forall confined)).
  - constructor.
  - intros a b Ha Hb. apply Forall_app. now split.
  - intros record s0.
    pose proof (process_record_runs record s0) as R.
    destruct (process_record record s0) as [res s'].
    inversion R; subst; cbn [snd trace];
      try (eexists; split; [reflexivity|];
           repeat constructor; assumption).
    exists []. rewrite app_nil_r. auto.
Qed.

(** X2: in one invocation, however it ends, every destination key
    written or recorded starts with "resized-" and holds no slash:
    derivatives land at the top level of the destination bucket,
    whatever folders the source keys name. *)
Theorem dest_keys_are_flat (event : S3Event.Event) (s : State World) :
  exists added,
    trace (snd (lambda_handler event s)) = (trace s ++ added)%list
    /\ Forall writes_flat added.
Proof.
  rewrite (proj1 (lambda_handler_for_each event s)).
  apply (for_each_added (Forall writes_flat)).
  - constructor.
  - intros a b Ha Hb. apply Forall_app. now split.
  - intros record s0.
    pose proof (process_record_runs record s0) as R.
    destruct (process_record record s0) as [res s'].
    inversion R; subst; cbn [snd trace];
      try (eexists; split; [reflexivity|];
           repeat constructor; apply resized_key_is_flat).
    exists []. rewrite app_nil_r. auto.
Qed.

Ltac split_entries E before :=
  destruct before as [|? [|? [|? [|? ?]]]];
  cbn in E; try discriminate E; inversion E; subst.

Lemma process_record_follows_writes (record : S3Event.Record_)
    (s : State World) :
  exists a,
    trace (snd (process_record record s)) = (trace s ++ a)%list
    /\ records_follow_writes a.
Proof.
  pose proof (process_record_runs record s) as R.
  destruct (process_record record s) as [res s'].
  inversion R; subst; cbn [snd trace].
  - exists []. rewrite app_nil_r. split; [reflexivity|].
    intros before item outcome after E. now destruct before.
  - eexists. split; [reflexivity|].
    intros before item outcome after E. split_entries E before.
  - eexists. split; [reflexivity|].
    intros before item outcome after E. split_entries E before.
  - eexists. split; [reflexivity|].
    intros before item outcome after E. split_entries E before.
  - eexists. split; [reflexivity|].
    intros before item outcome after E. split_entries E before.
  - eexists. split; [reflexivity|].
    intros before item0 outcome after E. split_entries E before.
    eexists [_], _, _. reflexivity.
  - eexists. split; [reflexivity|].
    intros before item0 outcome after E. split_entries E before.
    eexists [_], _, _. reflexivity.
Qed.

(** X3: in one invocation, however it ends, every [put_item] attempted
    comes right after a [put_object] that returned for the very bucket
    and key the item names: no metadata record is ever written, or even
    tried, for a derivative that was not stored. *)
Theorem every_record_follows_its_write
    (event : S3Event.Event) (s : State World) :
  exists added,
    trace (snd (lambda_handler event s)) = (trace s ++ added)%list
    /\ records_follow_writes added.
Proof.
  rewrite (proj1 (lambda_handler_for_each event s)).
  apply (for_each_added records_follow_writes).
  - intros before item outcome after E. now destruct before.
  - apply records_follow_writes_app.
  - apply process_record_follows_writes.
Qed.

(** X4: when [get_object] raises for a record of the source bucket (a
    missing key, say), the record and the invocation raise that same
    exception; the failed read is the only call added, and the world is
    the one the read left: nothing is decoded, written or recorded. *)
Theorem failed_read_stops_the_item
    (before after : list S3Event.Record_) (record : S3Event.Record_)
    (s0 s : State World) (w1 : World) (e : Exception) :
  record_bucket record = SOURCE_BUCKET ->
  processed_all before s0 s ->
  s3_get_object (record_bucket record) (record_key record) (world s)
  = (inl e, w1) ->
  process_record record s
  = (inl e,
     mkState w1
       (trace s ++
        [(GetObject (record_bucket record) (record_key record), Raised e)]))
  /\ lambda_handler {| S3Event.Records := before ++ record :: after |} s0
     = (inl e,
        mkState w1
          (trace s ++
           [(GetObject (record_bucket record) (record_key record),
             Raised e)])).
Proof.
  intros Hb P Hget.
  match goal with |- ?L = ?R /\ _ => assert (L = R) as F end.
  { unfold process_record, record_bucket, record_key in *.
    rewrite (proj2 (String.eqb_eq _ _) Hb). cbn [negb].
    unfold bind, store_call. rewrite Hget. reflexivity. }
  split; [exact F|].
  unfold lambda_handler, bind. cbn [S3Event.Records].
  rewrite for_each_app.
  apply for_each_processed in P. rewrite P.
  cbn [for_each]. unfold bind. now rewrite F.
Qed.

Lemma source_records_source (record : S3Event.Record_)
    (records : list S3Event.Record_) :
  record_bucket record = SOURCE_BUCKET ->
  source_records (record :: records) = record :: source_records records.
Proof.
  intro Hb. unfold source_records. cbn [filter].
  now rewrite (proj2 (String.eqb_eq _ _) Hb).
Qed.

Lemma source_records_foreign (record : S3Event.Record_)
    (records : list S3Event.Record_) :
  record_bucket record <> SOURCE_BUCKET ->
  source_records (record :: records) = source_records records.
Proof.
  intro Hb. unfold source_records. cbn [filter].
  now rewrite (proj2 (String.eqb_neq _ _) Hb).
Qed.

(** X5: when every record of a batch is processed without raising, the
    invocation made exactly three store calls for each record of the
    source bucket and none for the others; all of them returned, and
    there are as many derivatives written, and as many metadata records
    inserted, as there are records of the source bucket. *)
Theorem success_counts
    (records : list S3Event.Record_) (s s' : State World) :
  processed_all records s s' ->
  exists added,
    trace s' = (trace s ++ added)%list
    /\ List.length added = (3 * List.length (source_records records))%nat
    /\ forallb returned added = true
    /\ List.length (derivatives added)
       = List.length (source_records records)
    /\ List.length (inserted added)
       = List.length (source_records records).
Proof.
  induction 1 as [s|record records s s1 s2 E _ IH].
  - exists []. rewrite app_nil_r. repeat split; reflexivity.
  - destruct IH as (b & Tb & Lb & Rb & Db & Ib).
    destruct (process_record_completed _ _ _ E)
      as [[Hb ->]|(Hb & body & ct & item & Ta & _ & _)].
    + exists b. rewrite (source_records_foreign _ _ Hb). auto.
    + eexists (_ ++ b)%list. rewrite (source_records_source _ _ Hb).
      split; [now rewrite Tb, Ta, <- app_assoc|].
      rewrite length_app, forallb_app, derivatives_app, inserted_app.
      rewrite !length_app, Lb, Rb, Db, Ib. cbn.
      repeat split; lia.
Qed.

Lemma for_each_reads (records : list S3Event.Record_) (s : State World) :
  exists added n,
    trace (snd (for_each process_record records s))
    = (trace s ++ added)%list
    /\ reads added = firstn n (source_keys records)
    /\ (fst (for_each process_record records s) = inr tt ->
        reads added = source_keys records).
Proof.
  revert s. induction records as [|record records IH]; intro s.
  - exists [], 0%nat. cbn. rewrite app_nil_r. auto.
  - cbn [for_each]. unfold bind, source_keys.
    pose proof (process_record_runs record s) as R.
    destruct (process_record record s) as [res s1].
    inversion R; subst; cbn [fst snd trace];
      repeat match goal with x := _ |- _ => subst x end;
      try (rewrite source_records_source by assumption;
           eexists _, 1%nat; split; [reflexivity|];
           split; [reflexivity | discriminate]).
    + rewrite source_records_foreign by assumption. apply IH.
    + rewrite source_records_source by assumption.
      match goal with
      | |- context [for_each process_record records ?s1] =>
          destruct (IH s1) as (b & n & Tb & Rb & Sb)
      end.
      cbn [trace] in Tb.
      eexists (_ ++ b)%list, (S n). split; [|split].
      * rewrite Tb, <- app_assoc. reflexivity.
      * rewrite reads_app. cbn. unfold source_keys in Rb. now rewrite Rb.
      * intro F. rewrite reads_app. cbn.
        unfold source_keys in Sb. now rewrite (Sb F).
Qed.

(** X6: records are read in the order of the batch.  In one invocation
    the keys passed to [get_object] are, in order, the keys of the first
    few records of the source bucket; when the handler returns its
    status they are the keys of all of them, each read exactly once. *)
Theorem reads_follow_the_batch (event : S3Event.Event) (s : State World) :
  exists added n,
    trace (snd (lambda_handler event s)) = (trace s ++ added)%list
    /\ reads added = firstn n (source_keys (S3Event.Records event))
    /\ (forall status,
          fst (lambda_handler event s) = inr status ->
          reads added = source_keys (S3Event.Records event)).
Proof.
  destruct (for_each_reads (S3Event.Records event) s)
    as (added & n & T & Rn & Rall).
  exists added, n.
  rewrite (proj1 (lambda_handler_for_each event s)).
  split; [exact T|]. split; [exact Rn|].
  intros status F. apply Rall.
  unfold lambda_handler, bind in F.
  destruct (for_each process_record (S3Event.Records event) s)
    as [[e|[]] s1]; [discriminate F | reflexivity].
Qed.

(** X7: a batch can be cut in two.  Once the records of [before] have
    been processed without raising, handling [before ++ after] in one
    invocation gives the result and the state that handling [after]
    gives from the state [before] left. *)
Theorem batch_splits
    (before after : list S3Event.Record_) (s s1 : State World) :
  processed_all before s s1 ->
  lambda_handler {| S3Event.Records := before ++ after |} s
  = lambda_handler {| S3Event.Records := after |} s1.
Proof.
  intro P. apply for_each_processed in P.
  unfold lambda_handler, bind. cbn [S3Event.Records].
  now rewrite for_each_app, P.
Qed.

(** X8: two keys of the source bucket with the same basename collide,
    be it the same key notified twice or one name in two folders.  When
    the two records are processed one after the other without raising,
    both [put_object] calls go to the same bucket and key, and two
    metadata records name that one derivative. *)
Theorem same_name_collides
    (first second : S3Event.Record_) (s s' : State World) :
  record_bucket first = SOURCE_BUCKET ->
  record_bucket second = SOURCE_BUCKET ->
  basename (record_key first) = basename (record_key second) ->
  processed_all [first; second] s s' ->
  let k := "resized-" ++ basename (record_key first) in
  exists added,
    trace s' = (trace s ++ added)%list
    /\ derivatives added = [(DEST_BUCKET, k); (DEST_BUCKET, k)]
    /\ List.length (records_for DEST_BUCKET k added) = 2%nat
    /\ one_record_per_derivative added = false.
Proof.
  intros Hb1 Hb2 Hsame P k. subst k.
  inversion P as [|? ? ? s1 ? E1 P2]; subst.
  inversion P2 as [|? ? ? s2 ? E2 P3]; subst.
  inversion P3; subst.
  destruct (process_record_completed _ _ _ E1)
    as [[Hn _]|(_ & body1 & ct1 & item1 & T1 & B1 & K1)];
    [contradiction|].
  destruct (process_record_completed _ _ _ E2)
    as [[Hn _]|(_ & body2 & ct2 & item2 & T2 & B2 & K2)];
    [contradiction|].
  rewrite <- Hsame in T2, K2.
  eexists. split; [rewrite T2, T1, <- app_assoc; reflexivity|].
  unfold one_record_per_derivative.
  cbn [app derivatives records_for forallb fst snd].
  rewrite B1, B2, K1, K2, !String.eqb_refl. cbn.
  repeat split; reflexivity.
Qed.

(** X9: the folders of a key are dropped.  For a record whose key is a
    name without slash put in any folder path, every [put_object] and
    every [put_item] made for it names the destination key "resized-"
    followed by the name alone. *)
Theorem folders_are_dropped
    (record : S3Event.Record_) (dir name : string) (s : State World) :
  record_key record = dir ++ "/" ++ name ->
  PyStr.contains "/"%char name = false ->
  exists added,
    trace (snd (process_record record s)) = (trace s ++ added)%list
    /\ Forall (names_dest_key ("resized-" ++ name)) added.
Proof.
  intros Hkey Hname.
  pose proof (basename_in_folder dir name Hname) as Hbase.
  rewrite <- Hkey in Hbase. unfold record_key in Hbase.
  pose proof (process_record_runs record s) as R.
  destruct (process_record record s) as [res s'].
  inversion R; subst; cbn [snd trace];
    repeat match goal with x := _ |- _ => subst x end;
    rewrite ?Hbase;
    try (eexists; split; [reflexivity|]; repeat constructor).
  exists []. rewrite app_nil_r. auto.
Qed.

End BatchFacts.

(** ** The further properties at work on the in-memory services *)

Lemma failed_read_stops_the_item_witness :
  process_record Demo.missing_record Demo.after_photo
  = (inl StoreReadError,
     mkState (world Demo.after_photo)
       (trace Demo.after_photo ++
        [(GetObject (record_bucket Demo.missing_record)
            (record_key Demo.missing_record), Raised StoreReadError)]))
  /\ lambda_handler
       {| S3Event.Records :=
            [Demo.photo_record]
            ++ Demo.missing_record :: [Demo.photo_record] |}
       (Demo.start true)
     = (inl StoreReadError,
        mkState (world Demo.after_photo)
          (trace Demo.after_photo ++
           [(GetObject (record_bucket Demo.missing_record)
               (record_key Demo.missing_record), Raised StoreReadError)])).
Proof.
  apply (failed_read_stops_the_item
           [Demo.photo_record] [Demo.photo_record] Demo.missing_record
           (Demo.start true) Demo.after_photo).
  - reflexivity.
  - apply for_each_processed. vm_compute. reflexivity.
  - vm_compute. reflexivity.
Defined.

Lemma success_counts_witness :
  exists added,
    trace Demo.after_photo = (trace (Demo.start true) ++ added)%list
    /\ List.length added
       = (3 * List.length
                (source_records [Demo.foreign_record; Demo.photo_record]))%nat
    /\ forallb returned added = true
    /\ List.length (derivatives added)
       = List.length
           (source_records [Demo.foreign_record; Demo.photo_record])
    /\ List.length (inserted added)
       = List.length
           (source_records [Demo.foreign_record; Demo.photo_record]).
Proof.
  apply (success_counts [Demo.foreign_record; Demo.photo_record]
           (Demo.start true) Demo.after_photo).
  apply for_each_processed. vm_compute. reflexivity.
Defined.

Lemma batch_splits_witness :
  lambda_handler
    {| S3Event.Records :=
         [Demo.foreign_record; Demo.photo_record] ++ [Demo.notes_record] |}
    (Demo.start true)
  = lambda_handler {| S3Event.Records := [Demo.notes_record] |}
      Demo.after_photo.
Proof.
  apply (batch_splits [Demo.foreign_record; Demo.photo_record]
           [Demo.notes_record] (Demo.start true) Demo.after_photo).
  apply for_each_processed. vm_compute. reflexivity.
Defined.

Lemma same_name_collides_witness :
  exists added,
    trace Albums.after_both = (trace Albums.start ++ added)%list
    /\ derivatives added
       = [(DEST_BUCKET,
           "resized-" ++ basename (record_key Albums.first_record));
          (DEST_BUCKET,
           "resized-" ++ basename (record_key Albums.first_record))]
    /\ List.length
         (records_for DEST_BUCKET
            ("resized-" ++ basename (record_key Albums.first_record)) added)
       = 2%nat
    /\ one_record_per_derivative added = false.
Proof.
  apply (same_name_collides Albums.first_record Albums.second_record
           Albums.start Albums.after_both).
  - reflexivity.
  - reflexivity.
  - reflexivity.
  - apply for_each_processed. vm_compute. reflexivity.
Defined.

Lemma folders_are_dropped_witness :
  exists added,
    trace (snd (process_record Demo.photo_record (Demo.start true)))
    = (trace (Demo.start true) ++ added)%list
    /\ Forall (names_dest_key ("resized-" ++ "photo.jpg")) added.
Proof.
  apply (folders_are_dropped Demo.photo_record "folder/sub" "photo.jpg").
  - reflexivity.
  - reflexivity.
Defined.
